(** * extract.py: unpack [pixel-sanctuary.zip] into the working directory

    The script under verification is

<<
    with zipfile.ZipFile('pixel-sanctuary.zip', 'r') as zip_ref:
        zip_ref.extractall('.')

    print("Extraction completed")
>>

    It is embedded as a program in a state-and-exception monad over an
    explicit world: a file system of directories and regular files, the
    working directory, the set of open descriptors, the text written to
    standard output and an event log.  The calls it makes into CPython
    ([zipfile.ZipFile], [ZipFile.extractall], [os.makedirs], [open], [print])
    are embedded function by function, after CPython 3.11 on a POSIX host
    ([os.path.sep] is [/], there is no [os.path.altsep] and no drive).

    What the embedding leaves out: permissions, quotas, links and special
    files (so the [OSError]s that occur are those of the name space: a name
    that exists, is missing, is a directory or is not one), and the byte
    format of archives: the content of a file is kept as what [zipfile]
    reads in it, see [content].  The reader sees the archive as it was when
    it was opened. *)

From stdpp Require Import gmap strings list fin_maps.
From Stdlib Require Import Strings.Ascii Strings.String Strings.Byte.

Local Open Scope string_scope.

(** ** Data *)

(** A path is the list of its components, outermost first.  Paths of the file
    system are absolute ([[]] is the root); paths handed to the [os] calls are
    relative and are resolved against the working directory, so that [[]] is
    the path [.] there. *)
Abbreviation path := (list string).

(** The Python exception classes the program can raise. *)
Inductive exn : Type :=
  | FileNotFoundError
  | IsADirectoryError
  | NotADirectoryError
  | FileExistsError
  | BadZipFile
  | KeyError
  | IndexError
  | ValueError.

Global Instance exn_eq_dec : EqDecision exn.
Proof. solve_decision. Defined.

(** What reading one member back from the archive yields: its bytes; or a
    local header that does not check ([ZipFile.open] raises [BadZipFile]
    before the target is opened); or data that fails its CRC-32 after
    [partial] has reached the target. *)
Inductive member_body (C : Type) : Type :=
  | Intact (data : C)
  | BadHeader
  | BadData (partial : C).
Arguments Intact {C} data.
Arguments BadHeader {C}.
Arguments BadData {C} partial.

(** [zipfile.ZipInfo]: one record of the central directory. *)
Record ZipInfo_ (C : Type) : Type := mkZipInfo {
  filename : string;
  body : member_body C
}.
Arguments mkZipInfo {C} filename body.
Arguments filename {C} z.
Arguments body {C} z.

(** The content of a regular file, as [zipfile] reads it: [Blob] is a byte
    string with no readable central directory ([_RealGetContents] raises
    [BadZipFile]), [Zip] is a byte string whose central directory lists
    [members], in that order.  A member's data is content again: an archive
    may hold an archive. *)
#[warnings="-register-all"]
Inductive content : Type :=
  | Blob (bytes : list byte)
  | Zip (members : list (ZipInfo_ content)).

Abbreviation ZipInfo := (ZipInfo_ content).

(** What a path of the file system names. *)
Inductive node : Type :=
  | Dir
  | File (c : content).

(** The log records, in order, what the run did to the outside. *)
Inductive event : Type :=
  | EvOpen (fd : nat)
  | EvClose (fd : nat)
  | EvMkdir (p : path)
  | EvWrite (p : path)
  | EvPrint (s : string).

Record world : Type := mkWorld {
  fs : gmap path node;
  cwd : path;
  open_fds : gset nat;
  stdout : string;
  log : list event
}.

Definition set_fs (f : gmap path node) (w : world) : world :=
  mkWorld f (cwd w) (open_fds w) (stdout w) (log w).
Definition set_open_fds (s : gset nat) (w : world) : world :=
  mkWorld (fs w) (cwd w) s (stdout w) (log w).
Definition set_stdout (s : string) (w : world) : world :=
  mkWorld (fs w) (cwd w) (open_fds w) s (log w).
Definition emit (e : event) (w : world) : world :=
  mkWorld (fs w) (cwd w) (open_fds w) (stdout w) (log w ++ [e]).

(** ** The monad: a result or a raised exception, and the world after *)

Inductive result (A : Type) : Type :=
  | Ok (a : A)
  | Raise (e : exn).
Arguments Ok {A} a.
Arguments Raise {A} e.

Definition M (A : Type) : Type := world → result A * world.

Global Instance M_ret : MRet M := λ A a w, (Ok a, w).
Global Instance M_bind : MBind M := λ A B k m w,
  match m w with
  | (Ok a, w1) => k a w1
  | (Raise e, w1) => (Raise e, w1)
  end.

Definition raise {A} (e : exn) : M A := λ w, (Raise e, w).

(** [pass] *)
Definition pass : M unit := mret tt.

(** [try: m except e: pass] *)
Definition try_except_pass (handled : exn) (m : M unit) : M unit :=
  λ w, match m w with
       | (Raise e, w1) =>
           if bool_decide (e = handled) then (Ok tt, w1) else (Raise e, w1)
       | r => r
       end.

(** [for x in xs: f x] *)
Fixpoint for_each {A} (xs : list A) (f : A → M unit) : M unit :=
  match xs with
  | [] => pass
  | x :: xs' => f x;; for_each xs' f
  end.

(** ** The host: [os], [io.open], [print] *)

(** Relative paths are resolved against the working directory. *)
Definition resolve (w : world) (rel : path) : path := cwd w ++ rel.

(** [os.path.exists] *)
Definition os_path_exists (rel : path) : M bool :=
  λ w, (Ok (bool_decide (is_Some (fs w !! resolve w rel))), w).

(** [os.path.isdir] *)
Definition os_path_isdir (rel : path) : M bool :=
  λ w, (Ok (match fs w !! resolve w rel with Some Dir => true | _ => false end), w).

(** [os.mkdir]: the directory must not exist and its parent must be a
    directory. *)
Definition os_mkdir (rel : path) : M unit :=
  λ w, let p := resolve w rel in
       match fs w !! p with
       | Some _ => (Raise FileExistsError, w)
       | None =>
           match fs w !! removelast p with
           | Some Dir => (Ok tt, emit (EvMkdir p) (set_fs (<[p := Dir]> (fs w)) w))
           | Some (File _) => (Raise NotADirectoryError, w)
           | None => (Raise FileNotFoundError, w)
           end
       end.

(** [os.makedirs(name)] with [exist_ok=False], on the reversed path so that
    [path.split(name)] is the pattern match: [tail] is the last component
    and [rhead] the reversed head.

<<
    head, tail = path.split(name)
    if head and tail and not path.exists(head):
        try:
            makedirs(head, exist_ok=exist_ok)
        except FileExistsError:
            pass
    mkdir(name, mode)
>> *)
Fixpoint makedirs_rev (rname : list string) : M unit :=
  match rname with
  | [] => raise FileNotFoundError
  | tail :: rhead =>
      (if bool_decide (rhead = []) then pass
       else
         e ← os_path_exists (rev rhead);
         if (e : bool) then pass
         else try_except_pass FileExistsError (makedirs_rev rhead));;
      os_mkdir (rev rname)
  end.

Definition os_makedirs (name : path) : M unit := makedirs_rev (rev name).

(** [open(targetpath, "wb")]: creates the file or truncates it.  A directory
    cannot be opened for writing, and the parent must be a directory. *)
Definition open_wb (rel : path) : M unit :=
  λ w, let p := resolve w rel in
       match fs w !! p with
       | Some Dir => (Raise IsADirectoryError, w)
       | _ =>
           match fs w !! removelast p with
           | Some Dir => (Ok tt, set_fs (<[p := File (Blob [])]> (fs w)) w)
           | Some (File _) => (Raise NotADirectoryError, w)
           | None => (Raise FileNotFoundError, w)
           end
       end.

(** The bytes [c] reach the file opened at [rel]. *)
Definition write_all (rel : path) (c : content) : M unit :=
  λ w, let p := resolve w rel in
       (Ok tt, emit (EvWrite p) (set_fs (<[p := File c]> (fs w)) w)).

(** [io.open(file, "rb")]: a fresh descriptor on an existing regular file,
    with the content the reader will see through it. *)
Definition io_open_rb (file : path) : M (nat * content) :=
  λ w, match fs w !! resolve w file with
       | None => (Raise FileNotFoundError, w)
       | Some Dir => (Raise IsADirectoryError, w)
       | Some (File c) =>
           let fd := fresh (open_fds w) in
           (Ok (fd, c), emit (EvOpen fd) (set_open_fds ({[fd]} ∪ open_fds w) w))
       end.

(** [fp.close()] *)
Definition fp_close (fd : nat) : M unit :=
  λ w, (Ok tt, emit (EvClose fd) (set_open_fds (open_fds w ∖ {[fd]}) w)).

(** [print(s)]: the text and a newline go to standard output. *)
Definition newline : string := String (ascii_of_nat 10) EmptyString.

Definition print (s : string) : M unit :=
  λ w, (Ok tt, emit (EvPrint s) (set_stdout (stdout w ++ s ++ newline) w)).

(** ** [zipfile] *)

Record ZipFile : Type := mkZipFile {
  fp : option nat;
  filelist : list ZipInfo;
  NameToInfo : gmap string ZipInfo
}.

(** [_RealGetContents] fills [filelist] and [NameToInfo] in central-directory
    order: [self.filelist.append(x); self.NameToInfo[x.filename] = x]. *)
Definition name_to_info (members : list ZipInfo) : gmap string ZipInfo :=
  foldl (λ m x, <[filename x := x]> m) ∅ members.

(** [ZipFile.__init__(file, 'r')]: open the file, read its directory; when
    that fails the descriptor is closed again before the exception leaves
    ([except: ... self._fpclose(fp); raise]).  The constructor's loop over
    fallback modes has none for ['rb'], so an [OSError] of [io.open] leaves
    at once. *)
Definition ZipFile_init (file : path) : M ZipFile :=
  '(fd, c) ← io_open_rb file;
  match c with
  | Blob _ => fp_close fd;; raise BadZipFile
  | Zip members => mret (mkZipFile (Some fd) members (name_to_info members))
  end.

(** [ZipFile.close]: [if self.fp is None: return], else release it. *)
Definition close (self : ZipFile) : M unit :=
  match fp self with
  | None => pass
  | Some fd => fp_close fd
  end.

(** [ZipFile.namelist] *)
Definition namelist (self : ZipFile) : list string :=
  map filename (filelist self).

(** [ZipFile.getinfo] *)
Definition getinfo (self : ZipFile) (name : string) : M ZipInfo :=
  match NameToInfo self !! name with
  | None => raise KeyError
  | Some info => mret info
  end.

(** [str.split(sep)] for a one-character separator. *)
Fixpoint split (sep : ascii) (s : string) : list string :=
  match s with
  | EmptyString => [EmptyString]
  | String c r =>
      if Ascii.eqb c sep then EmptyString :: split sep r
      else match split sep r with
           | h :: t => String c h :: t
           | [] => [String c EmptyString]
           end
  end.

(** [s[-1]], when there is one. *)
Fixpoint last_char (s : string) : option ascii :=
  match s with
  | EmptyString => None
  | String c EmptyString => Some c
  | String _ r => last_char r
  end.

(** [ZipInfo.is_dir]: [return self.filename[-1] == '/'], which raises
    [IndexError] on the empty name. *)
Definition is_dir (self : ZipInfo) : M bool :=
  match last_char (filename self) with
  | None => raise IndexError
  | Some c => mret (Ascii.eqb c "/")
  end.

Definition invalid_path_parts : list string := [""; "."; ".."].

(** The name a member is extracted under, as its components:

<<
    arcname = member.filename.replace('/', os.path.sep)
    arcname = os.path.splitdrive(arcname)[1]
    invalid_path_parts = ('', os.path.curdir, os.path.pardir)
    arcname = os.path.sep.join(x for x in arcname.split(os.path.sep)
                               if x not in invalid_path_parts)
>> *)
Definition arcname (member : ZipInfo) : path :=
  filter (λ x, x ∉ invalid_path_parts) (split "/" (filename member)).

(** [ZipFile.open(member)]: the archive must still be open; the member's
    local header is checked first. *)
Definition ZipFile_open (self : ZipFile) (member : ZipInfo) : M (member_body content) :=
  match fp self with
  | None => raise ValueError
  | Some _ =>
      match body member with
      | BadHeader => raise BadZipFile
      | b => mret b
      end
  end.

(** [shutil.copyfileobj(source, target)]: all of an intact member; of a
    damaged one what was read before the CRC check raised. *)
Definition copyfileobj (source : member_body content) (target : path) : M unit :=
  match source with
  | Intact data => write_all target data
  | BadData partial => write_all target partial;; raise BadZipFile
  | BadHeader => raise BadZipFile
  end.

(** [ZipFile._extract_member(member, targetpath, pwd)], called with a name.
    [os.path.join] of the destination with the sanitised name followed by
    [os.path.normpath] appends the components; [os.path.dirname] drops the
    last one.

<<
    if not isinstance(member, ZipInfo):
        member = self.getinfo(member)
    ...
    targetpath = os.path.join(targetpath, arcname)
    targetpath = os.path.normpath(targetpath)
    upperdirs = os.path.dirname(targetpath)
    if upperdirs and not os.path.exists(upperdirs):
        os.makedirs(upperdirs)
    if member.is_dir():
        if not os.path.isdir(targetpath):
            os.mkdir(targetpath)
        return targetpath
    with self.open(member, pwd=pwd) as source, \
         open(targetpath, "wb") as target:
        shutil.copyfileobj(source, target)
>> *)
Definition _extract_member (self : ZipFile) (name : string) (targetpath : path) : M unit :=
  member ← getinfo self name;
  let targetpath := (targetpath ++ arcname (member : ZipInfo))%list in
  let upperdirs := removelast targetpath in
  (if bool_decide (upperdirs = []) then pass
   else
     e ← os_path_exists upperdirs;
     if (e : bool) then pass else os_makedirs upperdirs);;
  d ← is_dir member;
  if (d : bool) then
    b ← os_path_isdir targetpath;
    if (b : bool) then pass else os_mkdir targetpath
  else
    source ← ZipFile_open self member;
    open_wb targetpath;;
    copyfileobj source targetpath.

(** [ZipFile.extractall(path)]: [members = self.namelist()], then
    [for zipinfo in members: self._extract_member(zipinfo, path, pwd)]. *)
Definition extractall (self : ZipFile) (path : path) : M unit :=
  for_each (namelist self) (λ zipinfo, _extract_member self zipinfo path).

(** ** The script *)

(** [with ctor as x: body]: [__enter__] returns the object itself;
    [ZipFile.__exit__] calls [close] and returns [None], so an exception of
    the body is raised again once the archive is closed. *)
Definition with_ZipFile {A} (ctor : M ZipFile) (body : ZipFile → M A) : M A :=
  λ w, match ctor w with
       | (Raise e, w1) => (Raise e, w1)
       | (Ok zip_ref, w1) =>
           match body zip_ref w1 with
           | (Ok a, w2) =>
               match close zip_ref w2 with
               | (Ok _, w3) => (Ok a, w3)
               | (Raise e, w3) => (Raise e, w3)
               end
           | (Raise e, w2) =>
               match close zip_ref w2 with
               | (Ok _, w3) => (Raise e, w3)
               | (Raise e', w3) => (Raise e', w3)
               end
           end
       end.

Definition archive_name : string := "pixel-sanctuary.zip".
Definition confirmation : string := "Extraction completed".

(** The module body; the destination ['.'] is the empty relative path. *)
Definition main : M unit :=
  with_ZipFile (ZipFile_init [archive_name])
    (λ zip_ref, extractall zip_ref []);;
  print confirmation.

(** The interpreter exits with status 0 when the module body returns and with
    status 1 when an exception reaches the top level. *)
Definition run (w : world) : nat * world :=
  match main w with
  | (Ok _, w') => (0, w')
  | (Raise _, w') => (1, w')
  end.

(** * Vocabulary of the specification and of the proofs *)

(** ** The two halves of [_extract_member] *)

(** [if upperdirs and not os.path.exists(upperdirs): os.makedirs(upperdirs)] *)
Definition make_upperdirs (upperdirs : path) : M unit :=
  if bool_decide (upperdirs = []) then pass
  else
    e ← os_path_exists upperdirs;
    if (e : bool) then pass else os_makedirs upperdirs.

(** The rest of [_extract_member], from [member.is_dir()] on. *)
Definition extract_body (self : ZipFile) (member : ZipInfo) (targetpath : path) : M unit :=
  d ← is_dir member;
  if (d : bool) then
    b ← os_path_isdir targetpath;
    if (b : bool) then pass else os_mkdir targetpath
  else
    source ← ZipFile_open self member;
    open_wb targetpath;;
    copyfileobj source targetpath.

(** A member whose name ends in a slash is a directory; one whose name ends
    in another character is a file. *)
Definition dir_member (m : ZipInfo) : Prop := last_char (filename m) = Some "/"%char.

Definition file_member (m : ZipInfo) : Prop :=
  ∃ c, last_char (filename m) = Some c ∧ c ≠ "/"%char.

(** ** Worlds the script passes through *)

Definition opened (fd : nat) (w : world) : world :=
  emit (EvOpen fd) (set_open_fds ({[fd]} ∪ open_fds w) w).

Definition closed (fd : nat) (w : world) : world :=
  emit (EvClose fd) (set_open_fds (open_fds w ∖ {[fd]}) w).

Definition printed (s : string) (w : world) : world :=
  emit (EvPrint s) (set_stdout (stdout w ++ s ++ newline) w).

(** The archive's path, and the object [ZipFile(...)] returns for it. *)
Definition archive_path (w : world) : path := resolve w [archive_name].

Definition zip_ref (w : world) (members : list ZipInfo) : ZipFile :=
  mkZipFile (Some (fresh (open_fds w))) members (name_to_info members).

(** ** Frames

    [touches D F w w']: from [w] to [w'] the working directory, the open
    descriptors and standard output stay as they are; the log grows by
    [mkdir] events at paths in [D] and write events at paths in [F]; and
    the file system changes at paths in [D] or [F] only. *)
Definition fs_event_at (D F : path → Prop) (ev : event) : Prop :=
  match ev with
  | EvMkdir p => D p
  | EvWrite p => F p
  | _ => False
  end.

Abbreviation nowhere := (λ _ : path, False).

Record touches (D F : path → Prop) (w w' : world) : Prop := mkTouches {
  touches_cwd : cwd w' = cwd w;
  touches_fds : open_fds w' = open_fds w;
  touches_stdout : stdout w' = stdout w;
  touches_log : ∃ evs, log w' = (log w ++ evs)%list ∧ Forall (fs_event_at D F) evs;
  touches_fs : ∀ q, fs w' !! q = fs w !! q ∨ D q ∨ F q
}.

(** The paths [os.makedirs(name)] may create: [name] and the directories
    above it, below the working directory. *)
Definition upto (w : world) (name : path) (q : path) : Prop :=
  ∃ pre, pre ≠ [] ∧ pre `prefix_of` name ∧ q = resolve w pre.

(** The paths members may create as directories, and the paths file members
    are written to. *)
Definition made_by (self : ZipFile) (names : list string) (w : world) (q : path) : Prop :=
  ∃ name m pre, name ∈ names ∧ NameToInfo self !! name = Some m ∧
                pre `prefix_of` arcname m ∧ q = resolve w pre.

Definition written_by (self : ZipFile) (names : list string) (w : world) (q : path) : Prop :=
  ∃ name m, name ∈ names ∧ NameToInfo self !! name = Some m ∧
            file_member m ∧ q = resolve w (arcname m).

(** ** What stays *)

(** File systems only grow under [mkdir]: what exists stays as it is, and
    what is new is a directory. *)
Definition grows (f f' : gmap path node) : Prop :=
  ∀ q, match f !! q with
       | Some n => f' !! q = Some n
       | None => f' !! q = None ∨ f' !! q = Some Dir
       end.

(** [persists evs f f']: a directory of [f] is a directory of [f']; a regular
    file of [f] is the same file in [f'], unless [evs] has a write to it, and
    then it still is a regular file. *)
Definition persists (evs : list event) (f f' : gmap path node) : Prop :=
  ∀ q, match f !! q with
       | Some Dir => f' !! q = Some Dir
       | Some (File c) =>
           f' !! q = Some (File c) ∨
           (EvWrite q ∈ evs ∧ ∃ c', f' !! q = Some (File c'))
       | None => True
       end.

(** The effect of extracting the members [names]. *)
Definition extracts (self : ZipFile) (names : list string) (w w' : world) : Prop :=
  touches (made_by self names w) (written_by self names w) w w' ∧
  ∀ evs, log w' = (log w ++ evs)%list → persists evs (fs w) (fs w').

(** The three ways [extract_body] can end: it leaves the world as it is; it
    makes the member's directory; or it writes the member's data (all of
    it, or the part read before a CRC failure). *)
Inductive body_outcome (self : ZipFile) (m : ZipInfo) (rel : path) (w : world)
  : result unit → world → Prop :=
  | body_unchanged r :
      (r = Ok tt → dir_member m ∧ fs w !! resolve w rel = Some Dir) →
      body_outcome self m rel w r w
  | body_mkdir :
      dir_member m →
      fs w !! resolve w rel = None →
      fs w !! removelast (resolve w rel) = Some Dir →
      body_outcome self m rel w (Ok tt)
        (emit (EvMkdir (resolve w rel)) (set_fs (<[resolve w rel := Dir]> (fs w)) w))
  | body_write r c :
      file_member m →
      is_Some (fp self) →
      fs w !! resolve w rel ≠ Some Dir →
      fs w !! removelast (resolve w rel) = Some Dir →
      (r = Ok tt ∧ body m = Intact c) ∨ (r = Raise BadZipFile ∧ body m = BadData c) →
      body_outcome self m rel w r
        (emit (EvWrite (resolve w rel)) (set_fs (<[resolve w rel := File c]> (fs w)) w)).

(** ** Running again *)




(** ** Names and paths *)

Fixpoint has_char (c : ascii) (s : string) : bool :=
  match s with
  | EmptyString => false
  | String c' r => orb (Ascii.eqb c' c) (has_char c r)
  end.





(** ** Concrete worlds *)

Definition bytes_of (s : string) : list byte := list_byte_of_string s.

(** A member stored intact under [name], holding [data]. *)
Definition stored (name data : string) : ZipInfo :=
  mkZipInfo name (Intact (Blob (bytes_of data))).

Definition home : path := ["home"; "user"].

(** A file system with the working directory [/home/user] and in it the
    nodes [here]. *)
Definition fs_with (here : list (string * node)) : gmap path node :=
  foldr (λ '(name, n) f, <[(home ++ [name])%list := n]> f)
        (<[home := Dir]> (<[["home"] := Dir]> {[ [] := Dir ]})) here.

(** A fresh process in [/home/user]: nothing open, nothing printed. *)
Definition world_with (here : list (string * node)) : world :=
  mkWorld (fs_with here) home ∅ "" [].

(** The scenario of the specification: [a.txt] and [dir/b.txt]. *)
Definition scenario : world :=
  world_with [(archive_name,
               File (Zip [stored "a.txt" "hello"; stored "dir/b.txt" "world"]))].

Definition no_archive : world := world_with [].


Definition empty_archive : world := world_with [(archive_name, File (Zip []))].

(** An archive whose second member collides with a directory that is
    already there. *)
Definition blocked : world :=
  world_with [(archive_name,
               File (Zip [stored "a.txt" "hello"; stored "docs" "x"]));
              ("docs", Dir)].

(** An archive with an absolute name and a name that climbs out. *)
Definition hostile : world :=
  world_with [(archive_name,
               File (Zip [stored "/etc/passwd" "x"; stored "../../up.txt" "y"]))].



(** ** Further vocabulary *)

(** [p] is a directory of [f]. *)
Definition dir_at (f : gmap path node) (p : path) : bool :=
  match f !! p with
  | Some Dir => true
  | _ => false
  end.

(** The file system is a tree: whatever exists below the root lies in a
    directory. *)
Definition tree (f : gmap path node) : Prop :=
  map_Forall (λ p _, p ≠ [] → dir_at f (removelast p) = true) f.




(** A directory where the archive should be. *)
Definition archive_is_directory : world := world_with [(archive_name, Dir)].


(** * Proofs *)

(** ** Reasoning about programs in [M] *)

Lemma bind_unfold {A B} (m : M A) (k : A → M B) w :
  (m ≫= k) w = match m w with
               | (Ok a, w1) => k a w1
               | (Raise e, w1) => (Raise e, w1)
               end.
Proof. reflexivity. Qed.

Lemma bind_inv {A B} (m : M A) (k : A → M B) w r w' :
  (m ≫= k) w = (r, w') →
  (∃ a w1, m w = (Ok a, w1) ∧ k a w1 = (r, w')) ∨
  (∃ e, m w = (Raise e, w') ∧ r = Raise e).
Proof.
  rewrite bind_unfold. destruct (m w) as [[a|e] w1]; intros H.
  - left. eauto.
  - right. inversion H; subst. eauto.
Qed.


Lemma mret_inv {A} (a : A) w r w' :
  (mret a : M A) w = (r, w') → r = Ok a ∧ w' = w.
Proof. intros H; inversion H; done. Qed.

Lemma pass_inv w r w' : pass w = (r, w') → r = Ok tt ∧ w' = w.
Proof. intros H; inversion H; done. Qed.

Lemma raise_inv {A} e w (r : result A) w' : raise e w = (r, w') → r = Raise e ∧ w' = w.
Proof. intros H; inversion H; done. Qed.

(** Splits a hypothesis on a sequenced program into its two halves. *)
Tactic Notation "bind_cases" hyp(H) "as" ident(a) ident(w1) ident(H1) :=
  apply bind_inv in H;
  destruct H as [(a & w1 & H1 & H) | (a & H & H1)];
  [| first [ discriminate H1
           | subst
           | injection H1 as H1; subst ] ].

(** ** What a call may touch *)
Lemma touches_refl D F w : touches D F w w.
Proof.
  split; try done; [|by left]. exists []. by rewrite app_nil_r.
Qed.

Lemma touches_weaken (D F D' F' : path → Prop) w w' :
  (∀ q, D q → D' q) → (∀ q, F q → F' q) →
  touches D F w w' → touches D' F' w w'.
Proof.
  intros HD HF [? ? ? (evs & ? & Hevs) Hfs]. split; try done.
  - exists evs. split; [done|]. eapply Forall_impl; [exact Hevs|].
    intros [| | | |]; cbn; auto.
  - intros q. destruct (Hfs q) as [?|[?|?]]; auto.
Qed.

Lemma touches_trans D F w1 w2 w3 :
  touches D F w1 w2 → touches D F w2 w3 → touches D F w1 w3.
Proof.
  intros [Hc1 Hf1 Hs1 (evs1 & Hl1 & He1) Hfs1] [Hc2 Hf2 Hs2 (evs2 & Hl2 & He2) Hfs2].
  split; try congruence.
  - exists (evs1 ++ evs2)%list. split.
    + by rewrite Hl2, Hl1, app_assoc.
    + by apply Forall_app.
  - intros q. destruct (Hfs2 q) as [->|?]; [|by right]. apply Hfs1.
Qed.


Lemma os_path_exists_inv rel w r w' :
  os_path_exists rel w = (r, w') →
  w' = w ∧ r = Ok (bool_decide (is_Some (fs w !! resolve w rel))).
Proof. intros H; inversion H; done. Qed.

Lemma os_path_isdir_inv rel w r w' :
  os_path_isdir rel w = (r, w') →
  w' = w ∧ ∃ b, r = Ok b ∧ (b = true ↔ fs w !! resolve w rel = Some Dir).
Proof.
  intros H; inversion H; subst. split; [done|]. eexists; split; [done|].
  destruct (fs w' !! resolve w' rel) as [[|]|]; split; congruence.
Qed.

Lemma os_mkdir_touches rel w r w' :
  os_mkdir rel w = (r, w') → touches (λ q, q = resolve w rel) nowhere w w'.
Proof.
  unfold os_mkdir. intros H.
  destruct (fs w !! resolve w rel) as [n|].
  { inversion H; subst. apply touches_refl. }
  destruct (fs w !! removelast (resolve w rel)) as [[|]|];
    inversion H; subst; try apply touches_refl.
  split; try done.
  - exists [EvMkdir (resolve w rel)]. split; [done|]. by constructor.
  - intros q. cbn. destruct (decide (q = resolve w rel)) as [->|Hne]; [by auto|].
    left. by apply lookup_insert_ne.
Qed.

Lemma try_except_pass_inv h m w r w' :
  try_except_pass h m w = (r, w') →
  ∃ r0, m w = (r0, w') ∧ (r = r0 ∨ (r0 = Raise h ∧ r = Ok tt)).
Proof.
  unfold try_except_pass. destruct (m w) as [[[]|e] w1].
  - intros H; inversion H; subst. eauto.
  - case_bool_decide as Hd; intros H; inversion H; subst; eauto.
Qed.

(** ** Paths *)

Lemma resolve_snoc w l x : removelast (resolve w (l ++ [x])) = resolve w l.
Proof. unfold resolve. by rewrite app_assoc, removelast_last. Qed.

Lemma resolve_inj w l1 l2 : resolve w l1 = resolve w l2 → l1 = l2.
Proof. unfold resolve. apply app_inv_head. Qed.



(** ** [os.makedirs] *)

Lemma upto_snoc w l x q : upto w l q → upto w (l ++ [x]) q.
Proof.
  intros (pre & ? & Hp & ->). exists pre. repeat split; [done|].
  by apply prefix_app_r.
Qed.

Lemma upto_self w l : l ≠ [] → upto w l (resolve w l).
Proof. intros. by exists l. Qed.

Lemma upto_cwd w w' l q : cwd w' = cwd w → upto w l q → upto w' l q.
Proof. unfold upto, resolve. by intros ->. Qed.

Lemma makedirs_rev_touches rname : ∀ w r w',
  makedirs_rev rname w = (r, w') → touches (upto w (rev rname)) nowhere w w'.
Proof.
  induction rname as [|tail rhead IH]; intros w r w' H.
  { apply raise_inv in H as [_ ->]. apply touches_refl. }
  cbn [makedirs_rev] in H. cbn [rev].
  assert (Hpre : ∀ r1 w1,
    (if bool_decide (rhead = []) then pass
     else e ← os_path_exists (rev rhead);
          if (e : bool) then pass
          else try_except_pass FileExistsError (makedirs_rev rhead)) w = (r1, w1) →
    touches (upto w (rev rhead ++ [tail])) nowhere w w1).
  { intros r1 w1 H1. case_bool_decide as Hrh.
    - apply pass_inv in H1 as [_ ->]. apply touches_refl.
    - bind_cases H1 as b w2 Hex; try (by inversion H1).
      apply os_path_exists_inv in Hex as [-> [= ->]].
      destruct (bool_decide _).
      + apply pass_inv in H1 as [_ ->]. apply touches_refl.
      + apply try_except_pass_inv in H1 as (r0 & H1 & _).
        apply IH in H1. eapply touches_weaken; [| |exact H1]; [|done].
        intros q. apply upto_snoc. }
  bind_cases H as u w1 H1.
  - specialize (Hpre _ _ H1). eapply touches_trans; [exact Hpre|].
    apply os_mkdir_touches in H. eapply touches_weaken; [| |exact H]; [|done].
    intros q ->. apply (upto_cwd w1); [by destruct Hpre|].
    cbn [rev]. apply upto_self. by destruct (rev rhead).
  - by apply Hpre in H.
Qed.

Lemma grows_refl f : grows f f.
Proof. intros q. destruct (f !! q); auto. Qed.

Lemma grows_trans f1 f2 f3 : grows f1 f2 → grows f2 f3 → grows f1 f3.
Proof.
  intros H1 H2 q. specialize (H1 q). specialize (H2 q).
  destruct (f1 !! q).
  - by rewrite H1 in H2.
  - destruct H1 as [H1|H1]; rewrite H1 in H2; auto.
Qed.

Lemma grows_insert_dir f p : f !! p = None → grows f (<[p := Dir]> f).
Proof.
  intros Hp q. destruct (decide (p = q)) as [->|Hne].
  - rewrite Hp, lookup_insert_eq. auto.
  - rewrite lookup_insert_ne by done. destruct (f !! q); auto.
Qed.

Lemma os_mkdir_cases rel w r w' :
  os_mkdir rel w = (r, w') →
  (r = Ok tt ∧ fs w !! resolve w rel = None ∧
   fs w !! removelast (resolve w rel) = Some Dir ∧
   w' = emit (EvMkdir (resolve w rel)) (set_fs (<[resolve w rel := Dir]> (fs w)) w)) ∨
  (∃ e, r = Raise e ∧ w' = w ∧
     ((e = FileExistsError ∧ is_Some (fs w !! resolve w rel)) ∨
      (e ≠ FileExistsError ∧ fs w !! resolve w rel = None ∧
       fs w !! removelast (resolve w rel) ≠ Some Dir))).
Proof.
  unfold os_mkdir. intros H.
  destruct (fs w !! resolve w rel) as [n|] eqn:E.
  { inversion H; subst. right. eexists. eauto 10. }
  destruct (fs w !! removelast (resolve w rel)) as [[|]|] eqn:E';
    inversion H; subst; [left; done|right..];
    eexists; (split; [done|]); (split; [done|]); right; done.
Qed.

(** When [name] does not exist yet, [os.makedirs(name)] either creates it,
    with the directories missing above it, or fails and changes nothing. *)
Lemma makedirs_rev_cases rname : ∀ w r w',
  fs w !! resolve w (rev rname) = None →
  makedirs_rev rname w = (r, w') →
  (r = Ok tt ∧ fs w' !! resolve w (rev rname) = Some Dir ∧ grows (fs w) (fs w')) ∨
  (∃ e, r = Raise e ∧ w' = w).
Proof.
  induction rname as [|tail rhead IH]; intros w r w' Hnone H.
  { apply raise_inv in H as [-> ->]. eauto. }
  cbn [makedirs_rev] in H. cbn [rev] in *.
  assert (Hmk : ∀ w1, cwd w1 = cwd w →
      fs w1 !! resolve w (rev rhead ++ [tail]) = None →
      grows (fs w) (fs w1) →
      (fs w1 !! resolve w (rev rhead) ≠ Some Dir → w1 = w) →
      os_mkdir (rev rhead ++ [tail]) w1 = (r, w') →
      (r = Ok tt ∧ fs w' !! resolve w (rev rhead ++ [tail]) = Some Dir ∧
       grows (fs w) (fs w')) ∨ (∃ e, r = Raise e ∧ w' = w)).
  { intros w1 Hc Hn1 Hg Hw1 Hm.
    assert (Hr : ∀ l, resolve w1 l = resolve w l) by (intros; unfold resolve; by rewrite Hc).
    apply os_mkdir_cases in Hm as [(-> & _ & Hpar & ->) | (e & -> & -> & He)].
    - left. split; [done|]. cbn. rewrite Hr. rewrite lookup_insert_eq. split; [done|].
      eapply grows_trans; [exact Hg|]. by apply grows_insert_dir.
    - right. exists e. split; [done|]. apply Hw1.
      destruct He as [[_ [n Hn]] | (_ & _ & Hpar)].
      + rewrite Hr in Hn. congruence.
      + by rewrite Hr, resolve_snoc in Hpar. }
  bind_cases H as u w1 H1.
  - case_bool_decide as Hrh.
    + apply pass_inv in H1 as [_ ->]. eapply Hmk; eauto using grows_refl.
    + bind_cases H1 as b w2 Hex; try (by inversion H1).
      apply os_path_exists_inv in Hex as [-> [= ->]].
      case_bool_decide as Hex.
      * apply pass_inv in H1 as [_ ->]. eapply Hmk; eauto using grows_refl.
      * assert (Hnh : fs w !! resolve w (rev rhead) = None).
        { destruct (fs w !! resolve w (rev rhead)) eqn:E; [|done].
          exfalso. apply Hex. eauto. }
        apply try_except_pass_inv in H1 as (r0 & H1 & Hr0).
        pose proof (makedirs_rev_touches _ _ _ _ H1) as Ht.
        apply IH in H1 as [(-> & Hd & Hg) | (e & -> & ->)]; [| |done].
        -- eapply Hmk; [by destruct Ht| |exact Hg|congruence|exact H].
           destruct (touches_fs _ _ _ _ Ht (resolve w (rev rhead ++ [tail])))
             as [->|[(pre & _ & [k Hk] & Heq)|[]]]; [done|]. apply resolve_inj in Heq. subst pre.
           apply (f_equal (@List.length string)) in Hk.
           rewrite !length_app in Hk. cbn in Hk. lia.
        -- eapply Hmk; eauto using grows_refl.
  - case_bool_decide as Hrh; [by apply pass_inv in H as [? _]|].
    bind_cases H as b w2 Hex; try (by inversion H).
    apply os_path_exists_inv in Hex as [-> [= ->]].
    case_bool_decide as Hex; [by apply pass_inv in H as [? _]|].
    assert (Hnh : fs w !! resolve w (rev rhead) = None).
    { destruct (fs w !! resolve w (rev rhead)) eqn:E; [|done].
      exfalso. apply Hex. eauto. }
    apply try_except_pass_inv in H as (r0 & H & Hr0).
    apply IH in H as [(-> & Hd & Hg) | (e & -> & ->)]; [| |done].
    + destruct Hr0 as [?|[? _]]; done.
    + right. eauto.
Qed.

(** ** One member: [_extract_member] in two halves *)

Lemma _extract_member_unfold self name targetpath :
  _extract_member self name targetpath =
  (member ← getinfo self name;
   make_upperdirs (removelast (targetpath ++ arcname member));;
   extract_body self member (targetpath ++ arcname member)).
Proof. reflexivity. Qed.

Lemma is_dir_inv m w r w' :
  is_dir m w = (r, w') →
  w' = w ∧
  ((r = Ok true ∧ dir_member m) ∨ (r = Ok false ∧ file_member m) ∨
   (r = Raise IndexError ∧ last_char (filename m) = None)).
Proof.
  unfold is_dir, dir_member, file_member.
  destruct (last_char (filename m)) as [c|]; intros H; inversion H; subst;
    (split; [done|]); [|by auto].
  destruct (Ascii.eqb_spec c "/"); subst; [left; done|right; left].
  split; [done|]. eauto.
Qed.

Lemma make_upperdirs_cases u w r w' :
  make_upperdirs u w = (r, w') →
  (r = Ok tt ∧ touches (upto w u) nowhere w w' ∧ grows (fs w) (fs w') ∧
   (u ≠ [] → is_Some (fs w' !! resolve w u))) ∨
  (∃ e, r = Raise e ∧ w' = w).
Proof.
  unfold make_upperdirs. intros H. case_bool_decide as Hu.
  { apply pass_inv in H as [-> ->]. left.
    split_and!; auto using touches_refl, grows_refl. done. }
  bind_cases H as b w1 Hex; try (by inversion H).
  apply os_path_exists_inv in Hex as [-> [= ->]].
  case_bool_decide as Hex.
  { apply pass_inv in H as [-> ->]. left.
    split_and!; auto using touches_refl, grows_refl. }
  assert (Hn : fs w !! resolve w u = None).
  { destruct (fs w !! resolve w u) eqn:E; [|done]. exfalso. apply Hex. eauto. }
  unfold os_makedirs in H.
  pose proof (makedirs_rev_touches _ _ _ _ H) as Ht.
  rewrite rev_involutive in Ht.
  apply makedirs_rev_cases in H; [|by rewrite rev_involutive].
  rewrite rev_involutive in H.
  destruct H as [(-> & Hd & Hg) | ?]; [left|right; done].
  split_and!; eauto.
Qed.

Lemma open_wb_cases rel w r w' :
  open_wb rel w = (r, w') →
  (r = Ok tt ∧ fs w !! resolve w rel ≠ Some Dir ∧
   fs w !! removelast (resolve w rel) = Some Dir ∧
   w' = set_fs (<[resolve w rel := File (Blob [])]> (fs w)) w) ∨
  (∃ e, r = Raise e ∧ w' = w).
Proof.
  unfold open_wb. intros H.
  destruct (fs w !! resolve w rel) as [[|c]|] eqn:E;
    [right; inversion H; eauto | |];
    (destruct (fs w !! removelast (resolve w rel)) as [[|]|] eqn:E';
     inversion H; subst; [left|right; eauto|right; eauto]);
    split_and!; congruence.
Qed.

Lemma extract_body_cases self m rel w r w' :
  extract_body self m rel w = (r, w') → body_outcome self m rel w r w'.
Proof.
  unfold extract_body. intros H.
  bind_cases H as d w1 Hd.
  2:{ apply is_dir_inv in H as [-> _]. by constructor. }
  apply is_dir_inv in Hd as [-> [[[= ->] Hm] | [[[= ->] Hm] | [? _]]]]; [| |done].
  - bind_cases H as b w1 Hb.
    2:{ apply os_path_isdir_inv in H as [-> (? & ? & _)]. done. }
    apply os_path_isdir_inv in Hb as [-> (b' & [= <-] & Hb)].
    destruct b.
    + apply pass_inv in H as [-> ->]. constructor. intros _. split; [done|]. by apply Hb.
    + apply os_mkdir_cases in H as [(-> & Hn & Hpar & ->) | (e & -> & -> & _)].
      * by constructor.
      * by constructor.
  - bind_cases H as source w1 Hs.
    2:{ unfold ZipFile_open in H. destruct (fp self); [destruct (body m)|];
        inversion H; subst; by constructor. }
    assert (w1 = w ∧ source = body m ∧ source ≠ BadHeader ∧ is_Some (fp self))
      as (-> & -> & Hsrc & Hfp).
    { unfold ZipFile_open in Hs. destruct (fp self); [destruct (body m)|];
        inversion Hs; subst; eauto. }
    bind_cases H as u w1 Ho.
    2:{ apply open_wb_cases in H as [(? & _) | (e' & [= ->] & ->)]; [done|].
        by constructor. }
    apply open_wb_cases in Ho as [(_ & Hnd & Hpar & ->) | (e' & ? & _)]; [|done].
    unfold copyfileobj in H.
    destruct (body m) as [data| |partial] eqn:Eb; [| done |].
    + inversion H; subst. cbn.
      replace (<[resolve w rel := File data]> (<[resolve w rel := File (Blob [])]> (fs w)))
        with (<[resolve w rel := File data]> (fs w)) by (by rewrite insert_insert_eq).
      apply (body_write self m rel w (Ok tt) data); auto.
    + rewrite bind_unfold in H. inversion H; subst. cbn.
      replace (<[resolve w rel := File partial]> (<[resolve w rel := File (Blob [])]> (fs w)))
        with (<[resolve w rel := File partial]> (fs w)) by (by rewrite insert_insert_eq).
      apply (body_write self m rel w (Raise BadZipFile) partial); auto.
Qed.

(** ** What persists *)
Lemma persists_refl evs f : persists evs f f.
Proof. intros q. destruct (f !! q) as [[|]|]; auto. Qed.

Lemma grows_persists evs f f' : grows f f' → persists evs f f'.
Proof.
  intros H q. specialize (H q). destruct (f !! q) as [[|]|]; auto.
Qed.

Lemma persists_trans e1 e2 f1 f2 f3 :
  persists e1 f1 f2 → persists e2 f2 f3 → persists (e1 ++ e2) f1 f3.
Proof.
  intros H1 H2 q. specialize (H1 q). specialize (H2 q).
  destruct (f1 !! q) as [[|c]|]; [by rewrite H1 in H2| |done].
  destruct H1 as [H1|[Hin [c' H1]]]; rewrite H1 in H2.
  - destruct H2 as [?|[? ?]]; [by left|right].
    split; [|done]. apply elem_of_app. auto.
  - right. split; [apply elem_of_app; auto|].
    destruct H2 as [?|[? ?]]; eauto.
Qed.

Lemma persists_insert_file f p c :
  f !! p ≠ Some Dir → persists [EvWrite p] f (<[p := File c]> f).
Proof.
  intros Hp q. destruct (decide (p = q)) as [<-|Hne].
  - rewrite lookup_insert_eq. destruct (f !! p) as [[|c0]|]; [done| |done].
    right. split; [apply list_elem_of_singleton; done|eauto].
  - rewrite lookup_insert_ne by done. destruct (f !! q) as [[|]|]; auto.
Qed.

(** The log only grows. *)
Lemma log_emit ev w : log (emit ev w) = (log w ++ [ev])%list.
Proof. done. Qed.

Lemma log_same evs w : log w = (log w ++ evs)%list → evs = [].
Proof.
  intros H. rewrite <- (app_nil_r (log w)) in H at 1. by apply app_inv_head in H.
Qed.

(** ** The effect of extracting members *)
Lemma extracts_refl self names w : extracts self names w w.
Proof.
  split; [apply touches_refl|]. intros evs _. apply persists_refl.
Qed.

Lemma extracts_trans self ns1 ns2 w1 w2 w3 :
  extracts self ns1 w1 w2 → extracts self ns2 w2 w3 →
  extracts self (ns1 ++ ns2) w1 w3.
Proof.
  intros [Ht1 Hp1] [Ht2 Hp2].
  assert (Hc : cwd w2 = cwd w1) by (by destruct Ht1).
  split.
  - eapply touches_trans.
    + eapply touches_weaken; [| |exact Ht1].
      * intros q (name & m & pre & ? & ?). exists name, m, pre.
        split; [apply elem_of_app; auto|done].
      * intros q (name & m & ? & ?). exists name, m.
        split; [apply elem_of_app; auto|done].
    + eapply touches_weaken; [| |exact Ht2]; unfold made_by, written_by, resolve;
        rewrite Hc.
      * intros q (name & m & pre & ? & ?). exists name, m, pre.
        split; [apply elem_of_app; auto|done].
      * intros q (name & m & ? & ?). exists name, m.
        split; [apply elem_of_app; auto|done].
  - intros evs Hl.
    destruct (touches_log _ _ _ _ Ht1) as (e1 & Hl1 & _).
    destruct (touches_log _ _ _ _ Ht2) as (e2 & Hl2 & _).
    assert (evs = (e1 ++ e2)%list) as ->.
    { rewrite Hl2, Hl1, <- app_assoc in Hl. by apply app_inv_head in Hl. }
    eapply persists_trans; eauto.
Qed.

Lemma body_outcome_extracts self name m w wa r w' :
  NameToInfo self !! name = Some m →
  cwd wa = cwd w →
  body_outcome self m (arcname m) wa r w' →
  touches (made_by self [name] w) (written_by self [name] w) wa w' ∧
  ∀ evs, log w' = (log wa ++ evs)%list → persists evs (fs wa) (fs w').
Proof.
  intros Hm Hc Hb.
  assert (Hr : ∀ l, resolve wa l = resolve w l) by (intros; unfold resolve; by rewrite Hc).
  destruct Hb as [r _ | Hd Hn Hpar | r c Hf Hfp Hnd Hpar Hr'].
  - split; [apply touches_refl|]. intros; apply persists_refl.
  - split.
    + split; try done.
      * eexists [_]. split; [done|]. constructor; [|done]. cbn.
        exists name, m, (arcname m). rewrite Hr.
        split; [apply list_elem_of_singleton; done|done].
      * intros q. cbn. destruct (decide (resolve wa (arcname m) = q)) as [<-|Hne].
        -- right. left. exists name, m, (arcname m). rewrite Hr.
           split; [apply list_elem_of_singleton; done|done].
        -- left. by apply lookup_insert_ne.
    + intros evs _. apply grows_persists. by apply grows_insert_dir.
  - split.
    + split; try done.
      * eexists [_]. split; [done|]. constructor; [|done]. cbn.
        exists name, m. rewrite Hr.
        split; [apply list_elem_of_singleton; done|done].
      * intros q. cbn. destruct (decide (resolve wa (arcname m) = q)) as [<-|Hne].
        -- right. right. exists name, m. rewrite Hr.
           split; [apply list_elem_of_singleton; done|done].
        -- left. by apply lookup_insert_ne.
    + intros evs Hl. rewrite log_emit in Hl. cbn in Hl.
      apply app_inv_head in Hl as <-. by apply persists_insert_file.
Qed.

(** [_extract_member] is: look the name up, make the upper directories,
    run the body. *)
Lemma extract_member_cases self name w r w' :
  _extract_member self name [] w = (r, w') →
  (NameToInfo self !! name = None ∧ r = Raise KeyError ∧ w' = w) ∨
  ∃ m, NameToInfo self !! name = Some m ∧
    ((∃ e wa, make_upperdirs (removelast (arcname m)) w = (Raise e, wa) ∧
              r = Raise e ∧ w' = w) ∨
     (∃ wa, make_upperdirs (removelast (arcname m)) w = (Ok tt, wa) ∧
            touches (upto w (removelast (arcname m))) nowhere w wa ∧
            grows (fs w) (fs wa) ∧
            (removelast (arcname m) ≠ [] →
             is_Some (fs wa !! resolve w (removelast (arcname m)))) ∧
            extract_body self m (arcname m) wa = (r, w') ∧
            body_outcome self m (arcname m) wa r w')).
Proof.
  rewrite _extract_member_unfold. cbn [app]. intros H.
  unfold getinfo in H. rewrite bind_unfold in H.
  destruct (NameToInfo self !! name) as [m|] eqn:Em.
  2:{ left. inversion H; done. }
  right. exists m. split; [done|]. cbn in H.
  bind_cases H as u wa Hu.
  - right. exists wa. destruct u.
    pose proof Hu as Hu'.
    apply make_upperdirs_cases in Hu as [(_ & Ht & Hg & Hex) | (? & ? & _)]; [|done].
    split_and!; auto. by apply extract_body_cases.
  - left. pose proof H as H'.
    apply make_upperdirs_cases in H as [(? & _) | (e & [= ->] & ->)]; [done|].
    eauto.
Qed.

Lemma upto_made_by self name m w q :
  NameToInfo self !! name = Some m →
  upto w (removelast (arcname m)) q → made_by self [name] w q.
Proof.
  intros Hm (pre & Hne & [k Hk] & ->). exists name, m, pre.
  split; [apply list_elem_of_singleton; done|]. split; [done|]. split; [|done].
  destruct (arcname m) as [|x l] eqn:E using rev_ind.
  - cbn in Hk. by destruct pre.
  - rewrite removelast_last in Hk. rewrite Hk. exists (k ++ [x])%list.
    by rewrite app_assoc.
Qed.

Lemma extract_member_extracts self name w r w' :
  _extract_member self name [] w = (r, w') → extracts self [name] w w'.
Proof.
  intros H. apply extract_member_cases in H
    as [(_ & _ & ->) | (m & Hm & [(e & wa & _ & _ & ->) | (wa & _ & Ht & Hg & _ & _ & Hb)])];
    try apply extracts_refl.
  assert (Hc : cwd wa = cwd w) by (by destruct Ht).
  destruct (body_outcome_extracts _ _ _ _ _ _ _ Hm Hc Hb) as [Htb Hpb].
  split.
  - eapply touches_trans; [|exact Htb].
    eapply touches_weaken; [| |exact Ht]; [|done].
    intros q. by apply upto_made_by.
  - intros evs Hl.
    destruct (touches_log _ _ _ _ Ht) as (e1 & Hl1 & _).
    destruct (touches_log _ _ _ _ Htb) as (e2 & Hl2 & _).
    assert (evs = (e1 ++ e2)%list) as ->.
    { rewrite Hl2, Hl1, <- app_assoc in Hl. by apply app_inv_head in Hl. }
    eapply persists_trans; [by apply grows_persists|auto].
Qed.

Lemma for_each_cons {A} (x : A) xs f w :
  for_each (x :: xs) f w =
  match f x w with
  | (Ok _, w1) => for_each xs f w1
  | (Raise e, w1) => (Raise e, w1)
  end.
Proof. reflexivity. Qed.

Lemma extractall_extracts self : ∀ names w r w',
  for_each names (λ zipinfo, _extract_member self zipinfo []) w = (r, w') →
  extracts self names w w'.
Proof.
  induction names as [|n rest IH]; intros w r w' H.
  { apply pass_inv in H as [_ ->]. apply extracts_refl. }
  rewrite for_each_cons in H.
  destruct (_extract_member self n [] w) as [[[]|e] w1] eqn:E.
  - apply (extracts_trans self [n] rest w w1 w').
    + eapply extract_member_extracts; eauto.
    + eapply IH; eauto.
  - inversion H; subst. apply (extracts_trans self [n] rest w w' w').
    + eapply extract_member_extracts; eauto.
    + apply extracts_refl.
Qed.

(** ** [NameToInfo] *)

Lemma name_to_info_snoc ms x :
  name_to_info (ms ++ [x]) = <[filename x := x]> (name_to_info ms).
Proof. unfold name_to_info. by rewrite foldl_app. Qed.

Lemma name_to_info_lookup ms name m :
  name_to_info ms !! name = Some m → filename m = name ∧ m ∈ ms.
Proof.
  induction ms as [|x ms IH] using rev_ind; [done|].
  rewrite name_to_info_snoc.
  destruct (decide (filename x = name)) as [<-|Hne].
  - rewrite lookup_insert_eq. intros [= <-]. split; [done|].
    apply elem_of_app. right. by apply list_elem_of_singleton.
  - rewrite lookup_insert_ne by done. intros H. apply IH in H as [? ?].
    split; [done|]. apply elem_of_app. by left.
Qed.



(** ** The script, case by case *)

Lemma main_cases w :
  let fd := fresh (open_fds w) in
  match fs w !! archive_path w with
  | None => main w = (Raise FileNotFoundError, w)
  | Some Dir => main w = (Raise IsADirectoryError, w)
  | Some (File (Blob _)) => main w = (Raise BadZipFile, closed fd (opened fd w))
  | Some (File (Zip members)) =>
      match extractall (zip_ref w members) [] (opened fd w) with
      | (Ok _, wE) => main w = (Ok tt, printed confirmation (closed fd wE))
      | (Raise e, wE) => main w = (Raise e, closed fd wE)
      end
  end.
Proof.
  unfold main, archive_path. rewrite bind_unfold.
  unfold with_ZipFile, ZipFile_init. rewrite bind_unfold. unfold io_open_rb.
  destruct (fs w !! resolve w [archive_name]) as [[|[b|members]]|]; try done.
  unfold mret, M_ret. cbv beta iota.
  fold (opened (fresh (open_fds w)) w). fold (zip_ref w members).
  destruct (extractall (zip_ref w members) [] _) as [[[]|e] wE]; done.
Qed.

Lemma extractall_extracts' self w r w' :
  extractall self [] w = (r, w') → extracts self (namelist self) w w'.
Proof. apply extractall_extracts. Qed.

Lemma fresh_released (X : gset nat) : ({[fresh X]} ∪ X) ∖ {[fresh X]} = X.
Proof.
  pose proof (is_fresh X) as Hfresh. apply set_eq. intros x.
  rewrite elem_of_difference, elem_of_union, !elem_of_singleton.
  split; [by intros [[?|?] ?]|]. intros Hx. split; [by right|]. by intros ->.
Qed.

(** ** Sanitised names *)

Lemma split_nonempty sep s : split sep s ≠ [].
Proof.
  destruct s as [|c r]; [done|]. cbn.
  destruct (Ascii.eqb c sep); [done|]. by destruct (split sep r).
Qed.






(** ** One successful member *)

Lemma extract_member_ok self name w w' :
  _extract_member self name [] w = (Ok tt, w') →
  ∃ m, NameToInfo self !! name = Some m ∧
    ((dir_member m ∧ fs w' !! resolve w (arcname m) = Some Dir) ∨
     (file_member m ∧ is_Some (fp self) ∧ ∃ c, body m = Intact c ∧
        fs w' !! resolve w (arcname m) = Some (File c) ∧
        fs w' !! removelast (resolve w (arcname m)) = Some Dir ∧
        ∃ evs, log w' = (log w ++ evs ++ [EvWrite (resolve w (arcname m))])%list)) ∧
    (removelast (arcname m) ≠ [] →
     is_Some (fs w' !! resolve w (removelast (arcname m)))).
Proof.
  intros H. apply extract_member_cases in H
    as [(_ & ? & _) | (m & Hm & [(e & wa & _ & ? & _) | (wa & _ & Ht & Hg & Hex & _ & Hb)])];
    try done.
  exists m. split; [done|].
  assert (Hr : ∀ l, resolve wa l = resolve w l).
  { intros; unfold resolve. by rewrite (touches_cwd _ _ _ _ Ht). }
  destruct (touches_log _ _ _ _ Ht) as (evs & Hl & _).
  inversion Hb as [r Hok | Hd Hn Hpar | r c Hf Hfp Hnd Hpar Hr']; subst.
  - destruct Hok as [Hd Hp]; [done|]. rewrite Hr in Hp. split; [left; done|done].
  - split.
    + left. split; [done|]. cbn. by rewrite Hr, lookup_insert_eq.
    + intros Hu. destruct (Hex Hu) as [n Hn']. cbn.
      destruct (decide (resolve wa (arcname m) = resolve w (removelast (arcname m)))) as [->|Hne].
      * rewrite lookup_insert_eq. eauto.
      * rewrite lookup_insert_ne by done. eauto.
  - destruct Hr' as [[_ Hbody] | [? _]]; [|done]. split.
    + right. split; [done|]. split; [done|]. exists c. split; [done|]. cbn.
      rewrite <- Hr. rewrite lookup_insert_eq. split; [done|]. split.
      * rewrite lookup_insert_ne; [done|]. intros Heq. rewrite <- Heq in Hpar. done.
      * exists evs. by rewrite Hl, <- app_assoc.
    + intros Hu. destruct (Hex Hu) as [n Hn']. cbn.
      destruct (decide (resolve wa (arcname m) = resolve w (removelast (arcname m)))) as [->|Hne].
      * rewrite lookup_insert_eq. eauto.
      * rewrite lookup_insert_ne by done. eauto.
Qed.

(** After a successful [extractall] the log has a write for every name that
    resolves to a file member. *)
Lemma extractall_ok_writes self : ∀ names w w' evs,
  for_each names (λ zipinfo, _extract_member self zipinfo []) w = (Ok tt, w') →
  log w' = (log w ++ evs)%list →
  ∀ name, name ∈ names →
  ∃ m, NameToInfo self !! name = Some m ∧
       (file_member m → EvWrite (resolve w (arcname m)) ∈ evs).
Proof.
  induction names as [|n rest IH]; intros w w' evs H Hl name Hin.
  { by apply elem_of_nil in Hin. }
  rewrite for_each_cons in H.
  destruct (_extract_member self n [] w) as [[[]|e] w1] eqn:E; [|done].
  pose proof (extract_member_extracts _ _ _ _ _ E) as [Ht1 _].
  pose proof (extractall_extracts _ _ _ _ _ H) as [Ht2 _].
  destruct (touches_log _ _ _ _ Ht1) as (e1 & Hl1 & _).
  destruct (touches_log _ _ _ _ Ht2) as (e2 & Hl2 & _).
  assert (evs = (e1 ++ e2)%list) as ->.
  { rewrite Hl2, Hl1, <- app_assoc in Hl. by apply app_inv_head in Hl. }
  apply elem_of_cons in Hin as [->|Hin].
  - apply extract_member_ok in E as (m & Hm & Hcase & _). exists m. split; [done|].
    intros Hf. destruct Hcase as [[Hd _] | (_ & _ & c & _ & _ & _ & evs' & Hl')].
    { destruct Hf as (c & Hc & Hne). unfold dir_member in Hd. congruence. }
    rewrite Hl1 in Hl'. apply app_inv_head in Hl' as ->.
    apply elem_of_app. left. apply elem_of_app. right.
    by apply list_elem_of_singleton.
  - destruct (IH _ _ _ H Hl2 name Hin) as (m & Hm & Hw). exists m. split; [done|].
    intros Hf. apply elem_of_app. right.
    unfold resolve in *. rewrite <- (touches_cwd _ _ _ _ Ht1). auto.
Qed.

(** The run on an archive that opens, with its log. *)
Lemma main_zip w members :
  fs w !! archive_path w = Some (File (Zip members)) →
  let fd := fresh (open_fds w) in
  ∃ r0 wE evs,
    extractall (zip_ref w members) [] (opened fd w) = (r0, wE) ∧
    extracts (zip_ref w members) (map filename members) (opened fd w) wE ∧
    log wE = (log w ++ [EvOpen fd] ++ evs)%list ∧
    Forall (fs_event_at (made_by (zip_ref w members) (map filename members) w)
                        (written_by (zip_ref w members) (map filename members) w)) evs ∧
    main w = match r0 with
             | Ok _ => (Ok tt, printed confirmation (closed fd wE))
             | Raise e => (Raise e, closed fd wE)
             end.
Proof.
  intros H fd. pose proof (main_cases w) as Hm. cbv zeta in Hm. rewrite H in Hm.
  fold fd in Hm.
  destruct (extractall (zip_ref w members) [] (opened fd w)) as [r0 wE] eqn:E.
  pose proof (extractall_extracts' _ _ _ _ E) as Hx.
  destruct Hx as [Ht Hp].
  destruct (touches_log _ _ _ _ Ht) as (evs & Hl & Hev).
  exists r0, wE, evs. split; [done|]. split; [by split|].
  split; [by rewrite Hl; cbn; rewrite <- app_assoc|]. split; [exact Hev|].
  by destruct r0.
Qed.

Lemma fs_event_not_print D F evs s : Forall (fs_event_at D F) evs → EvPrint s ∉ evs.
Proof.
  intros H Hin. rewrite Forall_forall in H. by apply H in Hin.
Qed.

(** ** Every member of a successful [extractall] *)




(** ** Extraction reads the file system and the working directory only *)















(** ** Running a member again *)












Section RunningAgain.

(** The archive object of both runs. *)
Variable self : ZipFile.






End RunningAgain.



(** ** Concrete runs *)

(** The scenario of the specification: afterwards [./a.txt] holds [hello],
    [./dir/b.txt] holds [world], and standard output holds the confirmation
    line. *)
Example scenario_run :
  (main scenario).1 = Ok tt ∧
  fs (main scenario).2 !! (home ++ ["a.txt"])%list = Some (File (Blob (bytes_of "hello"))) ∧
  fs (main scenario).2 !! (home ++ ["dir"; "b.txt"])%list =
    Some (File (Blob (bytes_of "world"))) ∧
  fs (main scenario).2 !! (home ++ ["dir"])%list = Some Dir ∧
  stdout (main scenario).2 = (confirmation ++ newline)%string.
Proof. by vm_compute. Qed.

(** Names are sanitised component by component. *)
Example arcname_examples :
  arcname (stored "/etc/passwd" "x") = ["etc"; "passwd"] ∧
  arcname (stored "../../up.txt" "y") = ["up.txt"] ∧
  arcname (stored "a//b/./c/" "") = ["a"; "b"; "c"] ∧
  split "/" "a//b/" = ["a"; ""; "b"; ""].
Proof. by vm_compute. Qed.

(** A member that collides with a directory stops the run: the members
    before it stay extracted, nothing is printed, the status is 1. *)
Example blocked_run :
  run blocked = (1, (main blocked).2) ∧
  (main blocked).1 = Raise IsADirectoryError ∧
  fs (main blocked).2 !! (home ++ ["a.txt"])%list = Some (File (Blob (bytes_of "hello"))) ∧
  stdout (main blocked).2 = "".
Proof. by vm_compute. Qed.

(** Collisions in the name space raise the [OSError] of the failing call
    and leave what was extracted before: a file where a directory is needed,
    a directory where a file is to be written, a file where a directory
    member is to be made, and the empty name. *)
Example name_space_errors :
  (main (world_with [(archive_name,
                      File (Zip [stored "a" "x"; stored "a/b" "y"]))])).1
    = Raise NotADirectoryError ∧
  (main (world_with [(archive_name,
                      File (Zip [stored "a/" ""; stored "a" "x"]))])).1
    = Raise IsADirectoryError ∧
  (main (world_with [(archive_name,
                      File (Zip [stored "a" "x"; stored "a/" ""]))])).1
    = Raise FileExistsError ∧
  (main (world_with [(archive_name,
                      File (Zip [stored "x/y/" ""; stored "" "x"]))])).1
    = Raise IndexError ∧
  (main (world_with [(archive_name, Dir)])).1 = Raise IsADirectoryError.
Proof. by vm_compute. Qed.

(** * The claims *)




(** C2. When no file exists at [pixel-sanctuary.zip] the program raises
    [FileNotFoundError] (the "archive not found" failure) and exits with a
    non-zero status; the world is left exactly as it was: nothing is created
    in the file system and nothing is printed. *)
Theorem missing_archive_fails w :
  fs w !! archive_path w = None →
  main w = (Raise FileNotFoundError, w) ∧ run w = (1, w).
Proof.
  intros H. pose proof (main_cases w) as Hm. cbv zeta in Hm. rewrite H in Hm.
  unfold run. by rewrite Hm.
Qed.

Lemma missing_archive_fails_witness :
  main no_archive = (Raise FileNotFoundError, no_archive) ∧
  run no_archive = (1, no_archive).
Proof. apply (missing_archive_fails no_archive). vm_compute. reflexivity. Defined.



(** C4. A run that completes adds exactly the line [Extraction completed]
    to standard output (the text, which holds no newline, and one newline),
    logs exactly one print, and exits with status 0. *)
Theorem success_prints_once w w' :
  main w = (Ok tt, w') →
  stdout w' = (stdout w ++ confirmation ++ newline)%string ∧
  has_char (ascii_of_nat 10) confirmation = false ∧
  run w = (0, w') ∧
  ∃ evs, log w' = (log w ++ evs ++ [EvPrint confirmation])%list ∧
         ∀ s, EvPrint s ∉ evs.
Proof.
  intros H. pose proof (main_cases w) as Hm. cbv zeta in Hm.
  destruct (fs w !! archive_path w) as [[|[b|members]]|] eqn:Ea; try congruence.
  destruct (main_zip w members Ea) as (r0 & wE & evs & _ & [Ht _] & Hl & Hev & Hmain).
  rewrite H in Hmain. destruct r0 as [[]|e]; [|done]. injection Hmain as ->.
  split; [cbn; by rewrite (touches_stdout _ _ _ _ Ht)|]. split; [done|].
  split; [unfold run; by rewrite H|].
  exists ([EvOpen (fresh (open_fds w))] ++ evs ++ [EvClose (fresh (open_fds w))])%list.
  split.
  - cbn. rewrite Hl. cbn. by rewrite <- !app_assoc.
  - intros s Hin. apply elem_of_app in Hin as [Hin|Hin].
    { by apply list_elem_of_singleton in Hin. }
    apply elem_of_app in Hin as [Hin|Hin].
    + by eapply fs_event_not_print.
    + by apply list_elem_of_singleton in Hin.
Qed.

Lemma success_prints_once_witness :
  stdout (main scenario).2 = (stdout scenario ++ confirmation ++ newline)%string ∧
  has_char (ascii_of_nat 10) confirmation = false ∧
  run scenario = (0, (main scenario).2) ∧
  ∃ evs, log (main scenario).2 = (log scenario ++ evs ++ [EvPrint confirmation])%list ∧
         ∀ s, EvPrint s ∉ evs.
Proof. apply (success_prints_once scenario). vm_compute. reflexivity. Defined.






(** C7. In a run that completes, the log is: the open of the archive, then
    [mkdir] and write events only, among them a write for every file member
    of the archive, then the close of the archive, and last the print.  So
    nothing is printed before every member is written and the handle is
    released. *)
Theorem confirmation_comes_last w w' :
  main w = (Ok tt, w') →
  ∃ fd members evs,
    fs w !! archive_path w = Some (File (Zip members)) ∧
    log w' = (log w ++ [EvOpen fd] ++ evs ++ [EvClose fd; EvPrint confirmation])%list ∧
    Forall (λ ev, ∃ p, ev = EvMkdir p ∨ ev = EvWrite p) evs ∧
    (∀ m, m ∈ members → file_member m → EvWrite (resolve w (arcname m)) ∈ evs) ∧
    fd ∉ open_fds w'.
Proof.
  intros H. pose proof (main_cases w) as Hm. cbv zeta in Hm.
  destruct (fs w !! archive_path w) as [[|[b|members]]|] eqn:Ea; try congruence.
  destruct (main_zip w members Ea) as (r0 & wE & evs & Hex & [Ht _] & Hl & Hev & Hmain).
  rewrite H in Hmain. destruct r0 as [[]|e]; [|done]. injection Hmain as ->.
  exists (fresh (open_fds w)), members, evs. split; [done|]. split_and!.
  - cbn. rewrite Hl. by rewrite <- !app_assoc.
  - eapply Forall_impl; [exact Hev|]. intros [| | p | p |]; cbn; try done; eauto.
  - intros m Hin Hf.
    assert (Hl' : log wE = (log (opened (fresh (open_fds w)) w) ++ evs)%list).
    { rewrite Hl. cbn. by rewrite <- app_assoc. }
    assert (Hname : filename m ∈ map filename members).
    { apply list_elem_of_fmap. eauto. }
    destruct (extractall_ok_writes _ _ _ _ _ Hex Hl' _ Hname) as (m' & Hm' & Hw).
    cbn in Hm'. apply name_to_info_lookup in Hm' as [Hfn _].
    assert (Ha : arcname m' = arcname m) by (unfold arcname; by rewrite Hfn).
    rewrite Ha in Hw. apply Hw. unfold file_member. by rewrite Hfn.
  - cbn. rewrite elem_of_difference, elem_of_singleton. by intros [_ []].
Qed.

Lemma confirmation_comes_last_witness :
  ∃ fd members evs,
    fs scenario !! archive_path scenario = Some (File (Zip members)) ∧
    log (main scenario).2 =
      (log scenario ++ [EvOpen fd] ++ evs ++ [EvClose fd; EvPrint confirmation])%list ∧
    Forall (λ ev, ∃ p, ev = EvMkdir p ∨ ev = EvWrite p) evs ∧
    (∀ m, m ∈ members → file_member m → EvWrite (resolve scenario (arcname m)) ∈ evs) ∧
    fd ∉ open_fds (main scenario).2.
Proof. apply (confirmation_comes_last scenario). vm_compute. reflexivity. Defined.

(** C8. Whatever the outcome, the set of open descriptors after the run is
    the set before it, and every descriptor the log shows opened during the
    run it also shows closed: the handle on the archive is released, also
    when the run fails. *)
Theorem archive_handle_released w :
  open_fds (main w).2 = open_fds w ∧
  ∀ fd evs, log (main w).2 = (log w ++ evs)%list → EvOpen fd ∈ evs → EvClose fd ∈ evs.
Proof.
  pose proof (main_cases w) as Hm. cbv zeta in Hm.
  assert (Hlog : ∀ w' mid post,
            log w' = (log w ++ [EvOpen (fresh (open_fds w))] ++ mid ++
                      EvClose (fresh (open_fds w)) :: post)%list →
            (∀ fd, EvOpen fd ∉ mid) → (∀ fd, EvOpen fd ∉ post) →
            ∀ fd evs, log w' = (log w ++ evs)%list → EvOpen fd ∈ evs → EvClose fd ∈ evs).
  { intros w' mid post Hl Hmid Hpost fd evs Hl' Hin. rewrite Hl in Hl'.
    apply app_inv_head in Hl' as <-.
    apply elem_of_app in Hin as [Hin|Hin].
    - apply list_elem_of_singleton in Hin. injection Hin as ->.
      apply elem_of_app. right. apply elem_of_app. right. apply list_elem_of_here.
    - apply elem_of_app in Hin as [Hin|Hin]; [by apply Hmid in Hin|].
      apply elem_of_cons in Hin as [?|Hin]; [done|]. by apply Hpost in Hin. }
  destruct (fs w !! archive_path w) as [[|[b|members]]|] eqn:Ea.
  - rewrite Hm. cbn. split; [done|]. intros fd evs Hl Hin.
    apply log_same in Hl as ->. by apply elem_of_nil in Hin.
  - rewrite Hm. split; [cbn; apply fresh_released|].
    apply (Hlog _ [] []); [cbn; by rewrite <- app_assoc| |];
      intros fd; apply not_elem_of_nil.
  - destruct (main_zip w members Ea) as (r0 & wE & evs & _ & [Ht _] & Hl & Hev & ->).
    assert (Hmid : ∀ fd, EvOpen fd ∉ evs).
    { intros fd Hin. rewrite Forall_forall in Hev. by apply Hev in Hin. }
    destruct r0 as [[]|e]; cbn [snd]; (split;
      [cbn; rewrite (touches_fds _ _ _ _ Ht); cbn; apply fresh_released|]).
    + apply (Hlog _ evs [EvPrint confirmation]); [|done|].
      * cbn. rewrite Hl. by rewrite <- !app_assoc.
      * intros fd Hin. by apply list_elem_of_singleton in Hin.
    + apply (Hlog _ evs []); [|done|].
      * cbn. rewrite Hl. by rewrite <- !app_assoc.
      * intros fd. apply not_elem_of_nil.
  - rewrite Hm. cbn. split; [done|]. intros fd evs Hl Hin.
    apply log_same in Hl as ->. by apply elem_of_nil in Hin.
Qed.



(** C10. On a valid archive without members the program succeeds: the file
    system is unchanged, the log has no [mkdir] and no write, and the one
    confirmation line is printed. *)
Theorem empty_archive_succeeds w :
  fs w !! archive_path w = Some (File (Zip [])) →
  ∃ fd w', main w = (Ok tt, w') ∧ run w = (0, w') ∧ fs w' = fs w ∧
           stdout w' = (stdout w ++ confirmation ++ newline)%string ∧
           log w' = (log w ++ [EvOpen fd; EvClose fd; EvPrint confirmation])%list.
Proof.
  intros H. pose proof (main_cases w) as Hm. cbv zeta in Hm. rewrite H in Hm.
  cbn in Hm. exists (fresh (open_fds w)). eexists. split; [exact Hm|].
  unfold run. rewrite Hm. split_and!; try done.
  cbn. by rewrite <- !app_assoc.
Qed.

Lemma empty_archive_succeeds_witness :
  ∃ fd w', main empty_archive = (Ok tt, w') ∧ run empty_archive = (0, w') ∧
           fs w' = fs empty_archive ∧
           stdout w' = (stdout empty_archive ++ confirmation ++ newline)%string ∧
           log w' = (log empty_archive ++ [EvOpen fd; EvClose fd; EvPrint confirmation])%list.
Proof. apply (empty_archive_succeeds empty_archive). vm_compute. reflexivity. Defined.


(** * Further properties of the run *)

(** ** The archive's place taken by a directory *)

(** X1. When [pixel-sanctuary.zip] names a directory, the program raises
    [IsADirectoryError] and exits with status 1; the world is left exactly
    as it was: no descriptor was opened, nothing is created, nothing is
    printed. *)
Theorem archive_directory_fails w :
  fs w !! archive_path w = Some Dir →
  main w = (Raise IsADirectoryError, w) ∧ run w = (1, w).
Proof.
  intros H. pose proof (main_cases w) as Hm. cbv zeta in Hm. rewrite H in Hm.
  unfold run. by rewrite Hm.
Qed.

Lemma archive_directory_fails_witness :
  main archive_is_directory = (Raise IsADirectoryError, archive_is_directory) ∧
  run archive_is_directory = (1, archive_is_directory).
Proof.
  apply (archive_directory_fails archive_is_directory). vm_compute. reflexivity.
Defined.

(** ** What the run leaves alone *)



(** ** Damaged members *)




(** ** [os.makedirs], all or nothing *)



(** ** Members stored under one name *)





(** ** Why a run fails *)











(** ** The tree of the file system *)

Lemma dir_at_spec f p : dir_at f p = true ↔ f !! p = Some Dir.
Proof.
  unfold dir_at. destruct (f !! p) as [[|]|]; split; congruence.
Qed.

Lemma tree_spec f :
  tree f ↔ ∀ p n, f !! p = Some n → p ≠ [] → f !! removelast p = Some Dir.
Proof.
  unfold tree. rewrite map_Forall_lookup. split; intros H p n Hp Hne.
  - apply dir_at_spec. eauto.
  - apply dir_at_spec. eauto.
Qed.

Lemma tree_insert_dir f p :
  tree f → f !! p = None → f !! removelast p = Some Dir → tree (<[p := Dir]> f).
Proof.
  rewrite !tree_spec. intros Hf Hp Hpar q n Hq Hne.
  destruct (decide (p = q)) as [<-|Hpq].
  - rewrite lookup_insert_ne; [done|]. intros Heq. congruence.
  - rewrite lookup_insert_ne in Hq by done.
    destruct (decide (p = removelast q)) as [->|Hpr].
    + by rewrite lookup_insert_eq.
    + rewrite lookup_insert_ne by done. eauto.
Qed.

Lemma tree_insert_file f p c :
  tree f → f !! p ≠ Some Dir → f !! removelast p = Some Dir →
  tree (<[p := File c]> f).
Proof.
  rewrite !tree_spec. intros Hf Hp Hpar q n Hq Hne.
  destruct (decide (p = q)) as [<-|Hpq].
  - rewrite lookup_insert_ne; [done|]. intros Heq. congruence.
  - rewrite lookup_insert_ne in Hq by done.
    destruct (decide (p = removelast q)) as [->|Hpr].
    + destruct Hp. eauto.
    + rewrite lookup_insert_ne by done. eauto.
Qed.

Lemma os_mkdir_tree rel w r w' :
  tree (fs w) → os_mkdir rel w = (r, w') → tree (fs w').
Proof.
  intros Ht H. apply os_mkdir_cases in H as [(_ & Hn & Hpar & ->) | (e & _ & -> & _)];
    [|done].
  by apply tree_insert_dir.
Qed.

Lemma makedirs_rev_tree rname : ∀ w r w',
  tree (fs w) → makedirs_rev rname w = (r, w') → tree (fs w').
Proof.
  induction rname as [|tail rhead IH]; intros w r w' Ht H.
  { by apply raise_inv in H as [_ ->]. }
  cbn [makedirs_rev] in H.
  assert (Hpre : ∀ r1 w1,
    (if bool_decide (rhead = []) then pass
     else e ← os_path_exists (rev rhead);
          if (e : bool) then pass
          else try_except_pass FileExistsError (makedirs_rev rhead)) w = (r1, w1) →
    tree (fs w1)).
  { intros r1 w1 H1. case_bool_decide as Hrh.
    - by apply pass_inv in H1 as [_ ->].
    - bind_cases H1 as b w2 Hex; try (by inversion H1).
      apply os_path_exists_inv in Hex as [-> _].
      destruct b.
      + by apply pass_inv in H1 as [_ ->].
      + apply try_except_pass_inv in H1 as (r0 & H1 & _). eauto. }
  bind_cases H as u w1 H1.
  - eapply os_mkdir_tree; [|exact H]. eauto.
  - eauto.
Qed.

Lemma make_upperdirs_tree u w r w' :
  tree (fs w) → make_upperdirs u w = (r, w') → tree (fs w').
Proof.
  unfold make_upperdirs. intros Ht H. case_bool_decide as Hu.
  { by apply pass_inv in H as [_ ->]. }
  bind_cases H as b w1 Hex; try (by inversion H).
  apply os_path_exists_inv in Hex as [-> _].
  destruct b; [by apply pass_inv in H as [_ ->]|].
  eapply makedirs_rev_tree; eauto.
Qed.

Lemma body_outcome_tree self m rel w r w' :
  tree (fs w) → body_outcome self m rel w r w' → tree (fs w').
Proof.
  intros Ht [r0 _ | Hd Hn Hpar | r0 c Hf Hfp Hnd Hpar Hres]; [done| |]; cbn.
  - by apply tree_insert_dir.
  - by apply tree_insert_file.
Qed.

Lemma extract_member_tree self name w r w' :
  tree (fs w) → _extract_member self name [] w = (r, w') → tree (fs w').
Proof.
  intros Ht H. apply extract_member_cases in H
    as [(_ & _ & ->) | (m & Hm & [(e & wa & _ & _ & ->) | (wa & Hu & _ & _ & _ & _ & Hb)])];
    try done.
  eapply body_outcome_tree; [|exact Hb]. eapply make_upperdirs_tree; eauto.
Qed.

Lemma extractall_tree self : ∀ names w r w',
  tree (fs w) →
  for_each names (λ zipinfo, _extract_member self zipinfo []) w = (r, w') →
  tree (fs w').
Proof.
  induction names as [|n rest IH]; intros w r w' Ht H.
  { by apply pass_inv in H as [_ ->]. }
  rewrite for_each_cons in H.
  destruct (_extract_member self n [] w) as [[[]|e] w1] eqn:E.
  - eapply IH; [|exact H]. eapply extract_member_tree; eauto.
  - injection H as <- <-. eapply extract_member_tree; eauto.
Qed.

(** X7. The run keeps the file system a tree: when every node below the
    root lies in a directory before the run, so it does after it, whether
    the run completes or fails half way. *)
Theorem tree_kept w : tree (fs w) → tree (fs (main w).2).
Proof.
  intros Ht. pose proof (main_cases w) as Hm. cbv zeta in Hm.
  destruct (fs w !! archive_path w) as [[|[b|members]]|] eqn:Ea;
    try (by rewrite Hm).
  destruct (main_zip w members Ea) as (r0 & wE & evs & Hex & _ & _ & _ & ->).
  assert (tree (fs wE)).
  { unfold extractall in Hex. eapply extractall_tree; [|exact Hex]. exact Ht. }
  by destruct r0.
Qed.

Lemma tree_kept_witness : tree (fs (main hostile).2).
Proof.
  apply (tree_kept hostile). apply (bool_decide_unpack _). vm_compute. exact I.
Defined.
